(** * University-Marks-Manager: the memoised Fibonacci calculator (src/fib.cpp)

    A shallow embedding of [fib] and [main] of src/fib.cpp, and the
    properties of the calculator, of its cache and of the driver loop.

    Machine integers are values of [Z] with the wrap-around written out:
    [int] is 32 bits wide, [long long] 64 bits, [size_t] 64 bits unsigned;
    signed overflow wraps around in two's complement.
    The function-local static vector [memo] is threaded through [fib] as an
    explicit state; it is [{0, 1}] when control first reaches its
    declaration, so the state starts as [init_memo].  A vector is a list
    of unbounded length: allocation never fails.
    The loops are not structurally recursive, so they take a fuel
    argument; the statements about a returned value say which fuel is
    enough. *)

From Stdlib Require Import ZArith List String Ascii Lia Bool.
From Stdlib Require Import DecimalString.
Import ListNotations.
Local Open Scope Z_scope.

(** ** Machine integers *)

Module Machine.

Definition INT_MAX : Z := 2147483647.
Definition INT_MIN : Z := -2147483648.

(** The values an [int] parameter can hold. *)
Definition in_int (z : Z) : Prop := INT_MIN <= z <= INT_MAX.

(** Result of an [int] computation, and conversion of a wider value to
    [int]: reduction modulo 2^32 into the signed range. *)
Definition to_int (z : Z) : Z :=
  (z + 2147483648) mod 4294967296 - 2147483648.

(** Result of a [long long] computation: reduction modulo 2^64 into the
    signed range. *)
Definition to_ll (z : Z) : Z :=
  (z + 9223372036854775808) mod 18446744073709551616 - 9223372036854775808.

(** Conversion of a signed value to [size_t] (64 bits, unsigned). *)
Definition to_size_t (z : Z) : Z := z mod 18446744073709551616.

(** [a + b] on [long long] operands. *)
Definition add_ll (a b : Z) : Z := to_ll (a + b).

End Machine.
Import Machine.

Ltac unwrap :=
  unfold add_ll, to_ll, to_int, to_size_t, in_int, INT_MAX, INT_MIN in *.

Ltac zmod := unwrap; Z.div_mod_to_equations; lia.

(** ** The calculator *)

(** The only exception the program throws. *)
Inductive exn : Type :=
| invalid_argument (what : string).

(** How a call of [fib] ends; every outcome carries the contents of [memo]
    at that point.
    - [Ret v m]: normal return of [v];
    - [Throw e m]: exception [e] leaves the function;
    - [Undefined m]: [operator[]] was applied to an index that is not below
      [memo.size()];
    - [OutOfFuel m]: the fuel of the model ran out inside the loop. *)
Inductive result : Type :=
| Ret (v : Z) (m : list Z)
| Throw (e : exn) (m : list Z)
| Undefined (m : list Z)
| OutOfFuel (m : list Z).

Definition memo_of (r : result) : list Z :=
  match r with
  | Ret _ m | Throw _ m | Undefined m | OutOfFuel m => m
  end.

(** [static std::vector<long long> memo = {0, 1};] *)
Definition init_memo : list Z := [0; 1].

(** [memo.size()] *)
Definition size (memo : list Z) : Z := Z.of_nat (List.length memo).

(** [memo[idx]] for a [size_t] index; [None] when the index is out of
    range. *)
Definition at_index (memo : list Z) (idx : Z) : option Z :=
  if idx <? size memo then nth_error memo (Z.to_nat idx) else None.

(** [memo.push_back(v)] *)
Definition push_back (memo : list Z) (v : Z) : list Z := memo ++ [v].

(** How the extension loop ends: the condition became false ([Done]), a
    subscript was out of range ([Fault]), or the fuel of the model ran out
    ([Exhausted]). *)
Inductive loop : Type :=
| Done (m : list Z)
| Fault (m : list Z)
| Exhausted (m : list Z).

Definition loop_memo (l : loop) : list Z :=
  match l with
  | Done m | Fault m | Exhausted m => m
  end.

(** The loop
    [for (int i = memo.size(); i <= n; ++i)
         memo.push_back(memo[i - 1] + memo[i - 2]);]
    entered with the current value of [i].  [i - 1], [i - 2] and [++i] are
    [int] computations; the subscripts are converted to [size_t]. *)
Fixpoint extend (fuel : nat) (n i : Z) (memo : list Z) : loop :=
  if i <=? n then
    match fuel with
    | O => Exhausted memo
    | S fuel' =>
        match at_index memo (to_size_t (to_int (i - 1))),
              at_index memo (to_size_t (to_int (i - 2))) with
        | Some a, Some b =>
            extend fuel' n (to_int (i + 1)) (push_back memo (add_ll a b))
        | _, _ => Fault memo
        end
    end
  else Done memo.

(** [return memo[n];] *)
Definition return_at (memo : list Z) (n : Z) : result :=
  match at_index memo (to_size_t n) with
  | Some v => Ret v memo
  | None => Undefined memo
  end.

Definition negative_msg : string := "Negative arguments are not allowed.".

(** [long long fib(int n)] on the cache [memo]. *)
Definition fib (fuel : nat) (n : Z) (memo : list Z) : result :=
  if n <? 0 then Throw (invalid_argument negative_msg) memo
  else if to_size_t n <? size memo then return_at memo n
  else
    match extend fuel n (to_int (size memo)) memo with
    | Done memo' => return_at memo' n
    | Fault memo' => Undefined memo'
    | Exhausted memo' => OutOfFuel memo'
    end.

(** The value a call hands back to its caller, if it returns. *)
Definition returned_value (r : result) : option Z :=
  match r with
  | Ret v _ => Some v
  | _ => None
  end.

(** The exception a call leaves with, if it throws. *)
Definition thrown (r : result) : option exn :=
  match r with
  | Throw e _ => Some e
  | _ => None
  end.

(** The caches the program can be in: the initial one, and the one left by
    a call of [fib] on an [int] that returned or threw. *)
Inductive reachable : list Z -> Prop :=
| reach_init : reachable init_memo
| reach_ret fuel n memo v memo' :
    reachable memo -> in_int n ->
    fib fuel n memo = Ret v memo' -> reachable memo'
| reach_throw fuel n memo e memo' :
    reachable memo -> in_int n ->
    fib fuel n memo = Throw e memo' -> reachable memo'.

(** ** The driver *)

(** What [main] has written so far, and the cache. *)
Record world : Type := mkWorld {
  memo : list Z;
  cout : string;
  cerr : string
}.

(** How the process ends. *)
Inductive run : Type :=
| Exit (code : Z) (w : world)
| Crash (w : world)
| Stuck (w : world).

Definition world_of (r : run) : world :=
  match r with
  | Exit _ w | Crash w | Stuck w => w
  end.

Definition exit_code (r : run) : option Z :=
  match r with
  | Exit code _ => Some code
  | _ => None
  end.

(** [operator<<] for [int] and [long long]: decimal digits, with a minus
    sign for a negative value. *)
Definition show (z : Z) : string := NilZero.string_of_int (Z.to_int z).

(** [std::endl] *)
Definition endl : string := String (ascii_of_nat 10) EmptyString.

(** One pass through the body of the [for] loop of [main].  The operands of
    the chain of [<<] are evaluated from left to right, so the text before
    the call of [fib] is written before [fib] runs. *)
Definition iteration (fuel : nat) (index : Z) (w : world) : run + world :=
  let out := (cout w ++ "fib(" ++ show index ++ ") = ")%string in
  match fib fuel index (memo w) with
  | Ret v m => inr (mkWorld m (out ++ show v ++ endl) (cerr w))
  | Throw (invalid_argument what) m =>
      inr (mkWorld m out (cerr w ++ "Error: " ++ what ++ endl))
  | Undefined m => inl (Crash (mkWorld m out (cerr w)))
  | OutOfFuel m => inl (Stuck (mkWorld m out (cerr w)))
  end.

(** [for (int index = 0; index < 100; ++index) { ... }] entered with the
    current value of [index]; falling off the end of [main] returns 0. *)
Fixpoint main_loop (steps fuel : nat) (index : Z) (w : world) : run :=
  if index <? 100 then
    match steps with
    | O => Stuck w
    | S steps' =>
        match iteration fuel index w with
        | inl r => r
        | inr w' => main_loop steps' fuel (to_int (index + 1)) w'
        end
    end
  else Exit 0 w.

(** [int main()] *)
Definition main (fuel : nat) : run :=
  main_loop fuel fuel 0 (mkWorld init_memo EmptyString EmptyString).

(** ** The Fibonacci sequence *)

(** The pair (F(n), F(n+1)). *)
Fixpoint Fpair (n : nat) : Z * Z :=
  match n with
  | O => (0, 1)
  | S k => let '(a, b) := Fpair k in (b, a + b)
  end.

(** The n-th Fibonacci number, over the integers. *)
Definition F (n : nat) : Z := fst (Fpair n).

(** The n-th Fibonacci number as a [long long] holds it. *)
Definition F64 (n : nat) : Z := to_ll (F n).

(** The cache of length [len] filled with 64-bit Fibonacci numbers. *)
Definition fibs (len : nat) : list Z := map F64 (seq 0 len).

(** ** The properties of the cache *)

(** From index [start] on, every entry is [add] of the two entries before
    it. *)
Definition recurrence_from (add : Z -> Z -> Z) (start : nat) (m : list Z)
  : Prop :=
  forall j a b c, (start <= j)%nat -> (2 <= j)%nat ->
    nth_error m j = Some c ->
    nth_error m (j - 1) = Some a ->
    nth_error m (j - 2) = Some b ->
    c = add a b.

(** The invariant of the cache, for a given reading of the sum. *)
Definition cache_invariant (add : Z -> Z -> Z) (m : list Z) : Prop :=
  nth_error m 0 = Some 0 /\ nth_error m 1 = Some 1 /\ recurrence_from add 2 m.

(** Where the loop variable can stand relative to the cache: at its end,
    or, once [++i] has wrapped around, one or two steps further. *)
Definition loop_pos (i : Z) (m : list Z) : Prop :=
  (i = size m /\ size m <= INT_MAX) \/
  (i = INT_MIN /\ size m = 2147483648) \/
  (i = INT_MIN + 1 /\ size m = 2147483649).

(** The text [main] writes for the indices [0 .. count-1]. *)
Definition line (index v : Z) : string :=
  ("fib(" ++ show index ++ ") = " ++ show v ++ endl)%string.

Definition expected_cout (count : nat) : string :=
  String.concat EmptyString
    (map (fun k => line (Z.of_nat k) (F64 k)) (seq 0 count)).

(** The lines for the indices [start .. start + count - 1]. *)
Definition lines_from (start count : nat) : string :=
  String.concat EmptyString
    (map (fun k => line (Z.of_nat k) (F64 k)) (seq start count)).

(** ** Machine arithmetic *)

Lemma to_int_id z : in_int z -> to_int z = z.
Proof. intros H. zmod. Qed.

Lemma to_int_wraps : to_int (INT_MAX + 1) = INT_MIN.
Proof. reflexivity. Qed.

Lemma to_ll_id z :
  -9223372036854775808 <= z <= 9223372036854775807 -> to_ll z = z.
Proof. intros H. zmod. Qed.

Lemma to_ll_range z :
  -9223372036854775808 <= to_ll z <= 9223372036854775807.
Proof. zmod. Qed.

Lemma to_size_t_id z : 0 <= z < 18446744073709551616 -> to_size_t z = z.
Proof. intros H. zmod. Qed.

Lemma add_ll_to_ll a b : add_ll (to_ll a) (to_ll b) = to_ll (a + b).
Proof. zmod. Qed.

(** ** The Fibonacci sequence *)

Lemma Fpair_snd n : snd (Fpair n) = F (S n).
Proof. unfold F. simpl. destruct (Fpair n); reflexivity. Qed.

Lemma F_0 : F 0 = 0.
Proof. reflexivity. Qed.

Lemma F_1 : F 1 = 1.
Proof. reflexivity. Qed.

Lemma F_rec n : F (S (S n)) = F (S n) + F n.
Proof.
  rewrite <- (Fpair_snd (S n)). simpl.
  pose proof (Fpair_snd n) as Hs. unfold F in *.
  destruct (Fpair n) as [a b]. simpl in *. lia.
Qed.

Lemma F_nonneg n : 0 <= F n /\ 0 <= F (S n).
Proof.
  induction n as [|n [IH1 IH2]].
  - rewrite F_0, F_1. lia.
  - rewrite F_rec. lia.
Qed.

Lemma F_mono n k : (n <= k)%nat -> F n <= F k.
Proof.
  induction 1 as [|k Hle IH]; [lia|].
  destruct k as [|k]; [rewrite F_1; destruct n; [rewrite F_0; lia | lia]|].
  rewrite F_rec. pose proof (F_nonneg k). lia.
Qed.

Lemma F_92 : F 92 = 7540113804746346429.
Proof. vm_compute. reflexivity. Qed.

Lemma F_93 : F 93 = 12200160415121876738.
Proof. vm_compute. reflexivity. Qed.

Lemma F64_exact n : (n <= 92)%nat -> F64 n = F n.
Proof.
  intros H. unfold F64. apply to_ll_id.
  pose proof (F_mono n 92 H) as Hm. rewrite F_92 in Hm.
  pose proof (F_nonneg n). lia.
Qed.

Lemma F64_rec n : F64 (S (S n)) = add_ll (F64 (S n)) (F64 n).
Proof. unfold F64. rewrite add_ll_to_ll, F_rec. reflexivity. Qed.

(** ** The vector *)

Lemma size_nonneg m : 0 <= size m.
Proof. unfold size. lia. Qed.

Lemma size_push_back m v : size (push_back m v) = size m + 1.
Proof. unfold size, push_back. rewrite length_app. simpl. lia. Qed.

Lemma at_index_in m idx :
  0 <= idx < size m ->
  exists v, at_index m idx = Some v /\ nth_error m (Z.to_nat idx) = Some v.
Proof.
  intros H. unfold at_index.
  destruct (Z.ltb_spec idx (size m)) as [_|Hge]; [|lia].
  destruct (nth_error m (Z.to_nat idx)) as [v|] eqn:E.
  - exists v. split; reflexivity.
  - apply nth_error_None in E. unfold size in H. lia.
Qed.

Lemma at_index_out m idx : size m <= idx -> at_index m idx = None.
Proof.
  intros H. unfold at_index.
  destruct (Z.ltb_spec idx (size m)); [lia | reflexivity].
Qed.

Lemma at_index_nth m idx v :
  0 <= idx -> at_index m idx = Some v -> nth_error m (Z.to_nat idx) = Some v.
Proof.
  unfold at_index. intros H0.
  destruct (idx <? size m); [trivial | discriminate].
Qed.

Lemma at_index_app m ext idx v :
  at_index m idx = Some v -> at_index (m ++ ext) idx = Some v.
Proof.
  unfold at_index, size. rewrite length_app.
  destruct (Z.ltb_spec idx (Z.of_nat (List.length m))) as [Hlt|]; [|discriminate].
  intros E.
  destruct (Z.ltb_spec idx (Z.of_nat (List.length m + List.length ext)));
    [|lia].
  rewrite nth_error_app1; [exact E|].
  apply nth_error_Some. congruence.
Qed.

(** ** The extension loop *)

Lemma extend_eq fuel n i m :
  extend fuel n i m =
  if i <=? n then
    match fuel with
    | O => Exhausted m
    | S fuel' =>
        match at_index m (to_size_t (to_int (i - 1))),
              at_index m (to_size_t (to_int (i - 2))) with
        | Some a, Some b =>
            extend fuel' n (to_int (i + 1)) (push_back m (add_ll a b))
        | _, _ => Fault m
        end
    end
  else Done m.
Proof. destruct fuel; reflexivity. Qed.

(** One pass through the loop body: either both reads hit the last two
    entries and the loop variable keeps its place relative to the cache, or
    the first read is out of range. *)
Lemma loop_step i m :
  loop_pos i m -> 2 <= size m ->
  (exists a b,
      at_index m (to_size_t (to_int (i - 1))) = Some a /\
      at_index m (to_size_t (to_int (i - 2))) = Some b /\
      nth_error m (List.length m - 1) = Some a /\
      nth_error m (List.length m - 2) = Some b /\
      forall x, loop_pos (to_int (i + 1)) (push_back m x)) \/
  (i = INT_MIN + 1 /\ at_index m (to_size_t (to_int (i - 1))) = None).
Proof.
  intros Hpos Hsz.
  assert (Hlast : forall idx, idx = size m - 1 \/ idx = size m - 2 ->
            exists v, at_index m idx = Some v /\
                      nth_error m (Z.to_nat idx) = Some v).
  { intros idx Hidx. apply at_index_in. lia. }
  assert (Hn1 : Z.to_nat (size m - 1) = (List.length m - 1)%nat)
    by (unfold size; lia).
  assert (Hn2 : Z.to_nat (size m - 2) = (List.length m - 2)%nat)
    by (unfold size; lia).
  destruct Hpos as [[Hi Hmax] | [[Hi Hs] | [Hi Hs]]].
  - left.
    destruct (Hlast (size m - 1)) as [a [Ha Ha']]; [lia|].
    destruct (Hlast (size m - 2)) as [b [Hb Hb']]; [lia|].
    exists a, b.
    replace (to_size_t (to_int (i - 1))) with (size m - 1) by zmod.
    replace (to_size_t (to_int (i - 2))) with (size m - 2) by zmod.
    rewrite <- Hn1, <- Hn2. repeat split; try assumption.
    intros x. unfold loop_pos. rewrite size_push_back.
    destruct (Z.eq_dec (size m) INT_MAX) as [E|E].
    + right. left. split; [zmod | unfold INT_MAX in E; lia].
    + left. split; [zmod | unfold INT_MAX in *; lia].
  - left.
    destruct (Hlast (size m - 1)) as [a [Ha Ha']]; [lia|].
    destruct (Hlast (size m - 2)) as [b [Hb Hb']]; [lia|].
    exists a, b.
    replace (to_size_t (to_int (i - 1))) with (size m - 1) by zmod.
    replace (to_size_t (to_int (i - 2))) with (size m - 2) by zmod.
    rewrite <- Hn1, <- Hn2. repeat split; try assumption.
    intros x. unfold loop_pos. rewrite size_push_back.
    right. right. split; [zmod | lia].
  - right. split; [exact Hi|].
    apply at_index_out. zmod.
Qed.

Lemma loop_pos_le_INT_MAX i m : loop_pos i m -> i <= INT_MAX.
Proof. unfold loop_pos, INT_MAX, INT_MIN. lia. Qed.

(** The loop only appends: whatever the arguments and however it ends. *)
Lemma extend_appends fuel : forall n i m,
  exists ext, loop_memo (extend fuel n i m) = m ++ ext.
Proof.
  induction fuel as [|fuel IH]; intros n i m; rewrite extend_eq;
    destruct (i <=? n); try (exists []; simpl; now rewrite app_nil_r).
  destruct (at_index m (to_size_t (to_int (i - 1)))) as [a|];
    [|exists []; simpl; now rewrite app_nil_r].
  destruct (at_index m (to_size_t (to_int (i - 2)))) as [b|];
    [|exists []; simpl; now rewrite app_nil_r].
  destruct (IH n (to_int (i + 1)) (push_back m (add_ll a b))) as [ext E].
  exists ([add_ll a b] ++ ext). rewrite E. unfold push_back.
  now rewrite <- app_assoc.
Qed.

Lemma recurrence_from_length add m : recurrence_from add (List.length m) m.
Proof.
  intros j a b c Hj _ Hc. exfalso.
  assert (nth_error m j <> None) as Hn by congruence.
  apply nth_error_Some in Hn. lia.
Qed.

Lemma recurrence_push add s m a b :
  (2 <= List.length m)%nat ->
  recurrence_from add s m ->
  nth_error m (List.length m - 1) = Some a ->
  nth_error m (List.length m - 2) = Some b ->
  recurrence_from add s (push_back m (add a b)).
Proof.
  intros Hlen Hrec Ha Hb j a' b' c Hs H2. unfold push_back.
  destruct (Nat.lt_trichotomy j (List.length m)) as [Hlt | [Heq | Hgt]].
  - rewrite !nth_error_app1 by lia. apply Hrec; assumption.
  - subst j. rewrite nth_error_app2 by lia.
    rewrite !(nth_error_app1 m) by lia.
    rewrite Nat.sub_diag. simpl. congruence.
  - intros Hc. exfalso.
    assert (nth_error (m ++ [add a b]) j <> None) as Hn by congruence.
    apply nth_error_Some in Hn. rewrite length_app in Hn. simpl in Hn. lia.
Qed.

(** Every entry the loop appends is the 64-bit sum of the two entries
    before it, wherever the loop stops. *)
Lemma extend_recurrence fuel : forall n i m s,
  loop_pos i m -> 2 <= size m -> recurrence_from add_ll s m ->
  recurrence_from add_ll s (loop_memo (extend fuel n i m)).
Proof.
  induction fuel as [|fuel IH]; intros n i m s Hpos Hsz Hrec;
    rewrite extend_eq; destruct (i <=? n); try exact Hrec.
  destruct (loop_step i m Hpos Hsz)
    as [(a & b & Ha & Hb & Hna & Hnb & Hnext) | [_ Hnone]].
  - rewrite Ha, Hb. apply IH.
    + apply Hnext.
    + rewrite size_push_back. lia.
    + apply recurrence_push; try assumption. unfold size in Hsz. lia.
  - rewrite Hnone. exact Hrec.
Qed.

(** Below [INT_MAX] the loop stops, with the cache [n + 1] entries long. *)
Lemma extend_done fuel : forall n m,
  n < INT_MAX -> 2 <= size m -> size m <= n + 1 ->
  (Z.to_nat (n + 1 - size m) <= fuel)%nat ->
  exists m', extend fuel n (size m) m = Done m' /\ size m' = n + 1.
Proof.
  induction fuel as [|fuel IH]; intros n m Hn Hsz Hle Hfuel;
    rewrite extend_eq; destruct (Z.leb_spec (size m) n) as [Hin|Hout];
    try (exists m; split; [reflexivity | lia]); [lia|].
  assert (Hpos : loop_pos (size m) m) by (left; split; zmod).
  destruct (loop_step (size m) m Hpos Hsz)
    as [(a & b & Ha & Hb & _ & _ & _) | [Hi _]]; [|unwrap; lia].
  rewrite Ha, Hb.
  replace (to_int (size m + 1)) with (size (push_back m (add_ll a b)))
    by (rewrite size_push_back; zmod).
  apply IH; rewrite ?size_push_back; lia.
Qed.

(** More fuel does not change the outcome of a loop that stopped. *)
Lemma extend_fuel_mono fuel : forall fuel' n i m m',
  (fuel <= fuel')%nat ->
  extend fuel n i m = Done m' -> extend fuel' n i m = Done m'.
Proof.
  induction fuel as [|fuel IH]; intros fuel' n i m m' Hle;
    rewrite !extend_eq; destruct (i <=? n); try discriminate; try trivial.
  destruct fuel' as [|fuel']; [lia|].
  destruct (at_index m (to_size_t (to_int (i - 1)))); [|discriminate].
  destruct (at_index m (to_size_t (to_int (i - 2)))); [|discriminate].
  apply IH. lia.
Qed.

(** At [INT_MAX] the condition [i <= n] never fails: the loop runs until a
    read is out of range, which takes [2^31 + 2 - size] passes. *)
Lemma extend_INT_MAX fuel : forall i m,
  loop_pos i m -> 2 <= size m ->
  exists m',
    extend fuel INT_MAX i m =
    if 2147483650 - size m <=? Z.of_nat fuel then Fault m' else Exhausted m'.
Proof.
  induction fuel as [|fuel IH]; intros i m Hpos Hsz; rewrite extend_eq;
    pose proof (loop_pos_le_INT_MAX i m Hpos) as Hi;
    destruct (Z.leb_spec i INT_MAX) as [_|]; try lia.
  - exists m.
    destruct (Z.leb_spec (2147483650 - size m) (Z.of_nat 0)) as [H|];
      [|reflexivity].
    exfalso. unfold loop_pos, INT_MAX in Hpos. lia.
  - destruct (loop_step i m Hpos Hsz)
      as [(a & b & Ha & Hb & _ & _ & Hnext) | [Hmin Hnone]].
    + rewrite Ha, Hb.
      destruct (IH (to_int (i + 1)) (push_back m (add_ll a b)) (Hnext _))
        as [m' E]; [rewrite size_push_back; lia|].
      exists m'. rewrite E, size_push_back.
      destruct (Z.leb_spec (2147483650 - (size m + 1)) (Z.of_nat fuel));
        destruct (Z.leb_spec (2147483650 - size m) (Z.of_nat (S fuel)));
        try reflexivity; lia.
    + rewrite Hnone. exists m.
      destruct (Z.leb_spec (2147483650 - size m) (Z.of_nat (S fuel)));
        [reflexivity|].
      exfalso. destruct Hpos as [[H1 H2] | [[H1 H2] | [H1 H2]]];
        unfold INT_MAX, INT_MIN in *; lia.
Qed.

(** ** The calculator, case by case *)

Lemma fib_negative fuel n m :
  n < 0 -> fib fuel n m = Throw (invalid_argument negative_msg) m.
Proof.
  intros H. unfold fib.
  destruct (Z.ltb_spec n 0); [reflexivity | lia].
Qed.

Lemma fib_hit fuel n m :
  0 <= n <= INT_MAX -> n < size m ->
  exists v, at_index m n = Some v /\ fib fuel n m = Ret v m.
Proof.
  intros Hn Hlt. unfold fib, return_at.
  destruct (Z.ltb_spec n 0); [lia|].
  rewrite to_size_t_id by (unfold INT_MAX in Hn; lia).
  destruct (Z.ltb_spec n (size m)); [|lia].
  destruct (at_index_in m n) as [v [E _]]; [lia|].
  exists v. rewrite E. split; reflexivity.
Qed.

Lemma fib_miss fuel n m :
  0 <= n < INT_MAX -> 2 <= size m -> size m <= n ->
  (Z.to_nat (n + 1 - size m) <= fuel)%nat ->
  exists ext v,
    fib fuel n m = Ret v (m ++ ext) /\
    size (m ++ ext) = n + 1 /\
    at_index (m ++ ext) n = Some v /\
    recurrence_from add_ll (List.length m) (m ++ ext).
Proof.
  intros Hn Hsz Hle Hfuel. unfold fib, return_at.
  destruct (Z.ltb_spec n 0); [lia|].
  rewrite to_size_t_id by (unfold INT_MAX in Hn; lia).
  destruct (Z.ltb_spec n (size m)); [lia|].
  replace (to_int (size m)) with (size m) by zmod.
  destruct (extend_done fuel n m) as [m' [E Hsz']]; try lia.
  destruct (extend_appends fuel n (size m) m) as [ext Hext].
  assert (Hrec : recurrence_from add_ll (List.length m)
                   (loop_memo (extend fuel n (size m) m))).
  { apply extend_recurrence; [left; split; zmod | lia |].
    apply recurrence_from_length. }
  rewrite E in *. simpl in Hext, Hrec. subst m'.
  destruct (at_index_in (m ++ ext) n) as [v [Ev _]]; [lia|].
  exists ext, v. rewrite Ev. repeat split; assumption.
Qed.

(** A call only appends to the cache, however it ends. *)
Lemma fib_appends fuel n m : exists ext, memo_of (fib fuel n m) = m ++ ext.
Proof.
  unfold fib, return_at.
  destruct (n <? 0); [exists []; simpl; now rewrite app_nil_r|].
  destruct (to_size_t n <? size m).
  - exists []. rewrite app_nil_r. destruct (at_index m (to_size_t n));
      reflexivity.
  - destruct (extend_appends fuel n (to_int (size m)) m) as [ext E].
    exists ext. rewrite <- E.
    destruct (extend fuel n (to_int (size m)) m) as [m'|m'|m']; simpl;
      try reflexivity.
    destruct (at_index m' (to_size_t n)); reflexivity.
Qed.

Lemma fib_recurrence fuel n m s :
  in_int n -> 2 <= size m -> recurrence_from add_ll s m ->
  recurrence_from add_ll s (memo_of (fib fuel n m)).
Proof.
  intros Hn Hsz Hrec. unfold fib, return_at.
  destruct (Z.ltb_spec n 0) as [|Hn0]; [exact Hrec|].
  destruct (Z.ltb_spec (to_size_t n) (size m)) as [|Hge].
  - destruct (at_index m (to_size_t n)); exact Hrec.
  - assert (Hpos : loop_pos (to_int (size m)) m).
    { left. pose proof (size_nonneg m). split; zmod. }
    pose proof (extend_recurrence fuel n _ m s Hpos Hsz Hrec) as H.
    destruct (extend fuel n (to_int (size m)) m) as [m'|m'|m']; simpl in *;
      try exact H.
    destruct (at_index m' (to_size_t n)); exact H.
Qed.

Lemma invariant_size add m : cache_invariant add m -> 2 <= size m.
Proof.
  intros (_ & H1 & _). unfold size.
  assert (nth_error m 1 <> None) as Hn by congruence.
  apply nth_error_Some in Hn. lia.
Qed.

(** A call on an [int] keeps the invariant, read with the 64-bit sum. *)
Lemma fib_invariant fuel n m :
  in_int n -> cache_invariant add_ll m ->
  cache_invariant add_ll (memo_of (fib fuel n m)).
Proof.
  intros Hn Hinv. pose proof (invariant_size _ _ Hinv) as Hsz.
  destruct Hinv as (H0 & H1 & Hrec).
  pose proof (fib_recurrence fuel n m 2 Hn Hsz Hrec) as Hrec'.
  destruct (fib_appends fuel n m) as [ext E]. rewrite E in *.
  unfold size in Hsz.
  repeat split; [| |exact Hrec']; rewrite nth_error_app1 by lia; assumption.
Qed.

Lemma init_invariant add : cache_invariant add init_memo.
Proof.
  repeat split. intros j a b c Hj _ Hc. exfalso.
  assert (nth_error init_memo j <> None) as Hn by congruence.
  apply nth_error_Some in Hn. simpl in Hn. lia.
Qed.

Lemma reachable_invariant m : reachable m -> cache_invariant add_ll m.
Proof.
  induction 1 as [|fuel n m v m' _ IH Hn E|fuel n m e m' _ IH Hn E].
  - apply init_invariant.
  - pose proof (fib_invariant fuel n m Hn IH) as H. now rewrite E in H.
  - pose proof (fib_invariant fuel n m Hn IH) as H. now rewrite E in H.
Qed.

(** Under the invariant the cache holds the 64-bit Fibonacci numbers. *)
Lemma invariant_entries m : cache_invariant add_ll m ->
  forall k v, nth_error m k = Some v -> v = F64 k.
Proof.
  intros (H0 & H1 & Hrec).
  assert (H : forall k, (forall v, nth_error m k = Some v -> v = F64 k) /\
                        (forall v, nth_error m (S k) = Some v -> v = F64 (S k))).
  { induction k as [|k [IHa IHb]].
    - split; intros v Hv; [rewrite H0 in Hv | rewrite H1 in Hv];
        injection Hv as <-; reflexivity.
    - split; [exact IHb|]. intros v Hv.
      assert (Hlen : (S (S k) < List.length m)%nat)
        by (apply nth_error_Some; congruence).
      destruct (nth_error m (S k)) as [a|] eqn:Ea;
        [|apply nth_error_None in Ea; lia].
      destruct (nth_error m k) as [b|] eqn:Eb;
        [|apply nth_error_None in Eb; lia].
      rewrite (Hrec (S (S k)) a b v); try lia; try assumption.
      + rewrite (IHb a eq_refl), (IHa b eq_refl). symmetry. apply F64_rec.
      + simpl. now rewrite Nat.sub_0_r.
  }
  intros k. apply H.
Qed.

(** More fuel does not change a call that returned. *)
Lemma fib_fuel_mono fuel fuel' n m v m' :
  (fuel <= fuel')%nat ->
  fib fuel n m = Ret v m' -> fib fuel' n m = Ret v m'.
Proof.
  intros Hle. unfold fib.
  destruct (n <? 0); [trivial|].
  destruct (to_size_t n <? size m); [trivial|].
  destruct (extend fuel n (to_int (size m)) m) as [d|d|d] eqn:E;
    try discriminate.
  rewrite (extend_fuel_mono fuel fuel' _ _ _ _ Hle E). trivial.
Qed.

Lemma reachable_size m : reachable m -> 2 <= size m.
Proof. intros H. exact (invariant_size _ _ (reachable_invariant m H)). Qed.

(** Below [INT_MAX], and with fuel for the missing entries, a call on a
    cache that satisfies the invariant returns the 64-bit Fibonacci
    number. *)
Lemma fib_returns_F64 fuel n m :
  cache_invariant add_ll m -> 0 <= n < INT_MAX ->
  (Z.to_nat (n + 1 - size m) <= fuel)%nat ->
  exists m', fib fuel n m = Ret (F64 (Z.to_nat n)) m'.
Proof.
  intros Hinv Hn Hfuel. pose proof (invariant_size _ _ Hinv) as Hsz.
  destruct (Z.lt_ge_cases n (size m)) as [Hlt|Hge].
  - destruct (fib_hit fuel n m) as [v [Hv E]]; [lia | lia |].
    exists m. rewrite E. f_equal.
    apply (invariant_entries m Hinv). apply at_index_nth; [lia | exact Hv].
  - destruct (fib_miss fuel n m) as (ext & v & E & _ & Hv & _); try lia.
    exists (m ++ ext). rewrite E. f_equal.
    assert (Hinv' : cache_invariant add_ll (m ++ ext)).
    { pose proof (fib_invariant fuel n m) as H. rewrite E in H.
      apply H; [zmod | exact Hinv]. }
    apply (invariant_entries _ Hinv'). apply at_index_nth; [lia | exact Hv].
Qed.

(** Below [INT_MAX] the loop never reads out of range, whatever the
    fuel. *)
Lemma extend_no_fault fuel : forall n m,
  n < INT_MAX -> 2 <= size m -> size m <= n + 1 ->
  exists m',
    (extend fuel n (size m) m = Done m' /\ size m' = n + 1) \/
    extend fuel n (size m) m = Exhausted m'.
Proof.
  induction fuel as [|fuel IH]; intros n m Hn Hsz Hle;
    rewrite extend_eq; destruct (Z.leb_spec (size m) n) as [Hin|Hout];
    try (exists m; left; split; [reflexivity | lia]).
  - exists m. right. reflexivity.
  - assert (Hpos : loop_pos (size m) m) by (left; split; zmod).
    destruct (loop_step (size m) m Hpos Hsz)
      as [(a & b & Ha & Hb & _ & _ & _) | [Hi _]]; [|unwrap; lia].
    rewrite Ha, Hb.
    replace (to_int (size m + 1)) with (size (push_back m (add_ll a b)))
      by (rewrite size_push_back; zmod).
    apply IH; rewrite ?size_push_back; lia.
Qed.


(** At [INT_MAX] a call from the initial cache reads out of range after
    [2^31] passes through the loop, and never returns. *)
Lemma fib_INT_MAX fuel :
  exists m,
    fib fuel INT_MAX init_memo =
    if 2147483648 <=? Z.of_nat fuel then Undefined m else OutOfFuel m.
Proof.
  destruct (extend_INT_MAX fuel (to_int (size init_memo)) init_memo)
    as [m E].
  - left. split; [reflexivity | unfold size, INT_MAX; simpl; lia].
  - unfold size. simpl. lia.
  - exists m. unfold fib.
    change (INT_MAX <? 0) with false.
    change (to_size_t INT_MAX <? size init_memo) with false.
    cbv iota. rewrite E.
    change (2147483650 - size init_memo) with 2147483648.
    destruct (2147483648 <=? Z.of_nat fuel); reflexivity.
Qed.

(** ** The calculator: values *)

(** C1, as amended: for every index [n] from 0 to 92, in every reachable
    cache and with fuel for the entries still missing, [fib n] returns the
    n-th Fibonacci number of the sequence F(0) = 0, F(1) = 1,
    F(k+2) = F(k+1) + F(k); in particular F(10) = 55. *)
Theorem fib_is_Fibonacci_up_to_92 fuel n m :
  reachable m -> 0 <= n <= 92 -> (Z.to_nat n <= fuel)%nat ->
  (exists m', fib fuel n m = Ret (F (Z.to_nat n)) m') /\
  F 0 = 0 /\ F 1 = 1 /\ F 10 = 55 /\
  (forall k, F (S (S k)) = F (S k) + F k).
Proof.
  intros Hreach Hn Hfuel.
  split; [|repeat split; try reflexivity; apply F_rec].
  pose proof (reachable_invariant m Hreach) as Hinv.
  pose proof (invariant_size _ _ Hinv) as Hsz.
  destruct (fib_returns_F64 fuel n m Hinv) as [m' E];
    [unfold INT_MAX; lia | lia |].
  exists m'. rewrite E, F64_exact; [reflexivity | lia].
Qed.

Lemma fib_is_Fibonacci_up_to_92_witness :
  reachable init_memo /\ 0 <= 10 <= 92 /\ (Z.to_nat 10 <= 10)%nat /\
  (exists m', fib 10 10 init_memo = Ret 55 m').
Proof.
  split; [exact reach_init|]. split; [lia|]. split; [simpl; lia|].
  refine (proj1 (fib_is_Fibonacci_up_to_92 10 10 init_memo _ _ _));
    [exact reach_init | lia | simpl; lia].
Defined.

(** C1 as stated fails at n = 93: the call returns, but not F(93), which
    does not fit a [long long]. *)
Lemma fib_93_is_not_F_93 :
  fib 100 93 init_memo = Ret (-6246583658587674878) (fibs 94) /\
  F 93 = 12200160415121876738 /\
  ~ (exists fuel m, fib fuel 93 init_memo = Ret (F 93) m).
Proof.
  assert (E : fib 100 93 init_memo = Ret (-6246583658587674878) (fibs 94))
    by (vm_compute; reflexivity).
  split; [exact E|]. split; [exact F_93|].
  intros (fuel & m & H).
  apply (fib_fuel_mono fuel (fuel + 100)) in H; [|lia].
  apply (fib_fuel_mono 100 (fuel + 100)) in E; [|lia].
  rewrite E in H. apply (f_equal returned_value) in H.
  change (Some (-6246583658587674878) = Some (F 93)) in H.
  rewrite F_93 in H. discriminate.
Qed.

(** ** The calculator: negative arguments *)

(** C2: for every n < 0 and every cache, [fib n] throws
    [std::invalid_argument] with the message
    "Negative arguments are not allowed." and leaves the cache as it
    was. *)
Theorem fib_negative_throws fuel n m :
  n < 0 ->
  fib fuel n m =
    Throw (invalid_argument "Negative arguments are not allowed.") m /\
  memo_of (fib fuel n m) = m.
Proof.
  intros H. rewrite (fib_negative fuel n m H). split; reflexivity.
Qed.

Lemma fib_negative_throws_witness :
  -1 < 0 /\
  fib 0 (-1) [0; 1; 1; 2] =
    Throw (invalid_argument "Negative arguments are not allowed.")
      [0; 1; 1; 2].
Proof.
  split; [lia|].
  refine (proj1 (fib_negative_throws 0 (-1) [0; 1; 1; 2] _)). lia.
Defined.

(** ** The cache invariant *)

Lemma fib_93_from_init :
  fib 100 93 init_memo = Ret (-6246583658587674878) (fibs 94).
Proof. vm_compute. reflexivity. Qed.

Lemma fibs_94_tail :
  nth_error (fibs 94) 93 = Some (-6246583658587674878) /\
  nth_error (fibs 94) 92 = Some 7540113804746346429 /\
  nth_error (fibs 94) 91 = Some 4660046610375530309.
Proof. repeat split; vm_compute; reflexivity. Qed.

(** While the cache has at most 93 entries the 64-bit sum is the exact
    sum. *)
Lemma invariant_exact_up_to_92 m :
  cache_invariant add_ll m -> (List.length m <= 93)%nat ->
  cache_invariant Z.add m.
Proof.
  intros Hinv Hlen. pose proof (invariant_entries m Hinv) as Hent.
  destruct Hinv as (H0 & H1 & _). repeat split; try assumption.
  intros j a b c _ H2 Hc Ha Hb.
  assert (Hj : (j < List.length m)%nat) by (apply nth_error_Some; congruence).
  apply Hent in Hc, Ha, Hb. subst a b c.
  rewrite !F64_exact by lia.
  destruct j as [|[|k]]; try lia.
  replace (S (S k) - 1)%nat with (S k) by lia.
  replace (S (S k) - 2)%nat with k by lia.
  apply F_rec.
Qed.

(** C3, as amended: the cache invariant with the sum taken in wrapping
    signed 64-bit arithmetic -- cache[0] = 0, cache[1] = 1 and
    cache[i] = (cache[i-1] + cache[i-2]) reduced modulo 2^64 into the signed
    range, for every i >= 2 within the cache -- holds in the initial cache
    and is kept by every call of [fib] on every [int] argument, negative or
    not and however the call ends; as long as the cache has at most 93
    entries the sum is the exact one. *)
Theorem cache_invariant_holds :
  cache_invariant add_ll init_memo /\
  (forall fuel n m, in_int n -> cache_invariant add_ll m ->
     cache_invariant add_ll (memo_of (fib fuel n m))) /\
  (forall m, cache_invariant add_ll m -> (List.length m <= 93)%nat ->
     cache_invariant Z.add m).
Proof.
  split; [apply init_invariant|]. split.
  - intros fuel n m. apply fib_invariant.
  - apply invariant_exact_up_to_92.
Qed.

Lemma cache_invariant_holds_witness :
  in_int (-3) /\ cache_invariant add_ll init_memo /\
  cache_invariant add_ll (memo_of (fib 9 (-3) init_memo)) /\
  in_int 7 /\
  cache_invariant add_ll (memo_of (fib 9 7 init_memo)) /\
  (List.length init_memo <= 93)%nat /\
  cache_invariant Z.add init_memo.
Proof.
  pose proof cache_invariant_holds as (Hinit & Hstep & Hexact).
  assert (H3 : in_int (-3)) by (unfold in_int, INT_MIN, INT_MAX; lia).
  assert (H7 : in_int 7) by (unfold in_int, INT_MIN, INT_MAX; lia).
  assert (Hlen : (List.length init_memo <= 93)%nat) by (simpl; lia).
  split; [exact H3|]. split; [exact Hinit|].
  split; [exact (Hstep 9%nat (-3) init_memo H3 Hinit)|].
  split; [exact H7|].
  split; [exact (Hstep 9%nat 7 init_memo H7 Hinit)|].
  split; [exact Hlen|].
  exact (Hexact init_memo Hinit Hlen).
Defined.

(** C3 as stated, with the exact sum, fails: the invariant holds in the
    initial cache and no longer after the call [fib(93)]. *)
Lemma exact_invariant_broken_by_fib_93 :
  cache_invariant Z.add init_memo /\ in_int 93 /\
  ~ cache_invariant Z.add (memo_of (fib 100 93 init_memo)).
Proof.
  split; [apply init_invariant|].
  split; [unfold in_int, INT_MIN, INT_MAX; lia|].
  rewrite fib_93_from_init. unfold memo_of. intros (_ & _ & Hrec).
  destruct fibs_94_tail as (H93 & H92 & H91).
  specialize (Hrec 93%nat _ _ _ ltac:(lia) ltac:(lia) H93 H92 H91).
  lia.
Qed.

(** ** The calculator: cache hit and cache extension *)

(** C4, as amended: for every n with 0 <= n < INT_MAX and every cache with
    at least the two initial entries (every reachable cache has them), with
    fuel for the missing entries: [fib n] returns cache[n]; when n is below
    the length of the cache the cache is not changed; otherwise the cache is
    extended at its end up to index n inclusive, each new entry being the
    sum of the two entries before it reduced modulo 2^64 into the signed
    range; the length afterwards is max(old length, n + 1). *)
Theorem fib_hit_or_extend fuel n m :
  0 <= n < INT_MAX -> 2 <= size m ->
  (Z.to_nat (n + 1 - size m) <= fuel)%nat ->
  exists ext v,
    fib fuel n m = Ret v (m ++ ext) /\
    at_index (m ++ ext) n = Some v /\
    size (m ++ ext) = Z.max (size m) (n + 1) /\
    recurrence_from add_ll (List.length m) (m ++ ext) /\
    (n < size m -> ext = [] /\ at_index m n = Some v).
Proof.
  intros Hn Hsz Hfuel.
  destruct (Z.lt_ge_cases n (size m)) as [Hlt|Hge].
  - destruct (fib_hit fuel n m) as [v [Hv E]]; [lia | lia |].
    exists [], v. rewrite app_nil_r.
    repeat split; try assumption; try lia.
    apply recurrence_from_length.
  - destruct (fib_miss fuel n m) as (ext & v & E & Hs & Hv & Hrec); try lia.
    exists ext, v. repeat split; try assumption; lia.
Qed.

Lemma fib_hit_or_extend_witness :
  0 <= 6 < INT_MAX /\ 2 <= size [0; 1; 1; 2] /\
  (Z.to_nat (6 + 1 - size [0; 1; 1; 2]%Z) <= 3)%nat /\
  exists ext v,
    fib 3 6 [0; 1; 1; 2] = Ret v ([0; 1; 1; 2] ++ ext) /\
    at_index ([0; 1; 1; 2] ++ ext) 6 = Some v /\
    size ([0; 1; 1; 2] ++ ext) = Z.max (size [0; 1; 1; 2]) (6 + 1) /\
    recurrence_from add_ll (List.length [0; 1; 1; 2]) ([0; 1; 1; 2] ++ ext) /\
    (6 < size [0; 1; 1; 2] -> ext = [] /\ at_index [0; 1; 1; 2] 6 = Some v).
Proof.
  assert (H1 : 0 <= 6 < INT_MAX) by (unfold INT_MAX; lia).
  assert (H2 : 2 <= size [0; 1; 1; 2]) by (unfold size; simpl; lia).
  assert (H3 : (Z.to_nat (6 + 1 - size [0; 1; 1; 2]%Z) <= 3)%nat)
    by (unfold size; simpl; lia).
  split; [exact H1|]. split; [exact H2|]. split; [exact H3|].
  exact (fib_hit_or_extend 3 6 [0; 1; 1; 2] H1 H2 H3).
Defined.

(** C4 as stated, with the exact sum, fails at n = 93: the entry the call
    [fib(93)] appends at index 93 is not the sum of the entries at 92 and
    91. *)
Lemma entry_93_is_not_the_exact_sum :
  exists v m',
    fib 100 93 init_memo = Ret v m' /\
    nth_error m' 93 = Some (-6246583658587674878) /\
    nth_error m' 92 = Some 7540113804746346429 /\
    nth_error m' 91 = Some 4660046610375530309 /\
    ~ recurrence_from Z.add (List.length init_memo) m'.
Proof.
  exists (-6246583658587674878), (fibs 94).
  destruct fibs_94_tail as (H93 & H92 & H91).
  split; [exact fib_93_from_init|]. repeat split; try assumption.
  intros Hrec.
  specialize (Hrec 93%nat _ _ _ ltac:(simpl; lia) ltac:(lia) H93 H92 H91).
  lia.
Qed.

(** ** Repeated calls *)

Lemma fib_ret_at fuel n m v m' :
  fib fuel n m = Ret v m' -> 0 <= n /\ at_index m' (to_size_t n) = Some v.
Proof.
  unfold fib, return_at.
  destruct (Z.ltb_spec n 0) as [|Hn]; [discriminate|].
  assert (Hret : forall d,
            match at_index d (to_size_t n) with
            | Some v0 => Ret v0 d
            | None => Undefined d
            end = Ret v m' -> 0 <= n /\ at_index m' (to_size_t n) = Some v).
  { intros d. destruct (at_index d (to_size_t n)) as [u|] eqn:E;
      [|discriminate].
    intros H. injection H as -> ->. split; assumption. }
  destruct (to_size_t n <? size m); [apply Hret|].
  destruct (extend fuel n (to_int (size m)) m) as [d|d|d];
    [apply Hret | discriminate | discriminate].
Qed.

Lemma fib_again fuel fuel' n m v m' :
  in_int n -> fib fuel n m = Ret v m' -> fib fuel' n m' = Ret v m'.
Proof.
  intros Hint E. destruct (fib_ret_at _ _ _ _ _ E) as [Hn Hat].
  rewrite to_size_t_id in Hat by zmod.
  assert (Hlt : n < size m').
  { unfold at_index in Hat. destruct (Z.ltb_spec n (size m'));
      [assumption | discriminate]. }
  destruct (fib_hit fuel' n m') as [u [Hu E']]; [unwrap; lia | lia |].
  rewrite E'. congruence.
Qed.

(** C5: when a call [fib n] with n >= 0 has returned v, calling [fib n]
    again returns v again and leaves the cache as it is, so every index up
    to n returns after the second call what it returned before it; and
    [fib(5)] followed by [fib(3)] returns 5, then 2, with the entry at
    index 5 still 5. *)
Theorem fib_twice_same :
  (forall fuel fuel',
     fib (4 + fuel) 5 init_memo = Ret 5 [0; 1; 1; 2; 3; 5] /\
     fib fuel' 3 [0; 1; 1; 2; 3; 5] = Ret 2 [0; 1; 1; 2; 3; 5] /\
     at_index (memo_of (fib fuel' 3 [0; 1; 1; 2; 3; 5])) 5 = Some 5) /\
  (forall fuel1 fuel2 n m v m',
     in_int n -> 0 <= n -> fib fuel1 n m = Ret v m' ->
     fib fuel2 n m' = Ret v m' /\
     forall k fuel3 fuel4, 0 <= k <= n ->
       exists u, fib fuel3 k m' = Ret u m' /\
                 fib fuel4 k (memo_of (fib fuel2 n m')) = Ret u m').
Proof.
  split.
  - intros fuel fuel'.
    assert (E : fib 4 5 init_memo = Ret 5 [0; 1; 1; 2; 3; 5])
      by reflexivity.
    split; [apply (fib_fuel_mono 4 (4 + fuel)); [lia | exact E]|].
    split; reflexivity.
  - intros fuel1 fuel2 n m v m' Hint Hn E.
    pose proof (fib_again fuel1 fuel2 n m v m' Hint E) as E2.
    split; [exact E2|].
    intros k fuel3 fuel4 Hk. rewrite E2. unfold memo_of.
    destruct (fib_ret_at _ _ _ _ _ E) as [_ Hat].
    rewrite to_size_t_id in Hat by zmod.
    assert (Hlt : n < size m').
    { unfold at_index in Hat. destruct (Z.ltb_spec n (size m'));
        [assumption | discriminate]. }
    destruct (fib_hit fuel3 k m') as [u [Hu E3]]; [unwrap; lia | lia |].
    destruct (fib_hit fuel4 k m') as [u' [Hu' E4]]; [unwrap; lia | lia |].
    exists u. split; [exact E3|]. rewrite E4. congruence.
Qed.

Lemma fib_twice_same_witness :
  in_int 5 /\ 0 <= 5 /\
  fib 4 5 init_memo = Ret 5 [0; 1; 1; 2; 3; 5] /\
  fib 0 5 [0; 1; 1; 2; 3; 5] = Ret 5 [0; 1; 1; 2; 3; 5] /\
  (0 <= 3 <= 5 /\
   exists u, fib 0 3 [0; 1; 1; 2; 3; 5] = Ret u [0; 1; 1; 2; 3; 5] /\
             fib 0 3 (memo_of (fib 0 5 [0; 1; 1; 2; 3; 5]))
             = Ret u [0; 1; 1; 2; 3; 5]).
Proof.
  assert (Hint : in_int 5) by (unfold in_int, INT_MIN, INT_MAX; lia).
  assert (H0 : 0 <= 5) by lia.
  assert (E : fib 4 5 init_memo = Ret 5 [0; 1; 1; 2; 3; 5]) by reflexivity.
  assert (Hk : 0 <= 3 <= 5) by lia.
  pose proof (proj2 fib_twice_same 4%nat 0%nat 5 init_memo 5
                [0; 1; 1; 2; 3; 5] Hint H0 E) as [E2 Hsmall].
  split; [exact Hint|]. split; [exact H0|]. split; [exact E|].
  split; [exact E2|]. split; [exact Hk|].
  exact (Hsmall 3 0%nat 0%nat Hk).
Defined.

(** ** Monotonic growth *)

(** C6: for every call of [fib], with any argument and however it ends,
    the cache afterwards is the cache before with entries appended: every
    index cached before is cached after, with the same value. *)
Theorem cache_only_grows fuel n m :
  (exists ext, memo_of (fib fuel n m) = m ++ ext) /\
  (List.length m <= List.length (memo_of (fib fuel n m)))%nat /\
  (forall i v, nth_error m i = Some v ->
               nth_error (memo_of (fib fuel n m)) i = Some v).
Proof.
  destruct (fib_appends fuel n m) as [ext E]. rewrite E.
  split; [exists ext; reflexivity|]. split.
  - rewrite length_app. lia.
  - intros i v Hv. rewrite nth_error_app1; [exact Hv|].
    apply nth_error_Some. congruence.
Qed.

Lemma cache_only_grows_witness :
  nth_error [0; 1; 1] 2 = Some 1 /\
  nth_error (memo_of (fib 5 4 [0; 1; 1])) 2 = Some 1.
Proof.
  assert (H : nth_error [0; 1; 1] 2 = Some 1) by reflexivity.
  split; [exact H|].
  exact (proj2 (proj2 (cache_only_grows 5 4 [0; 1; 1])) 2%nat 1 H).
Defined.

(** ** The driver *)

Lemma append_assoc (s1 s2 s3 : string) :
  ((s1 ++ s2) ++ s3 = s1 ++ (s2 ++ s3))%string.
Proof. induction s1 as [|c s1 IH]; simpl; [reflexivity | now rewrite IH]. Qed.

Lemma fib_throw_any_fuel fuel fuel' n m e m' :
  fib fuel n m = Throw e m' -> fib fuel' n m = Throw e m'.
Proof.
  unfold fib, return_at. destruct (n <? 0); [trivial|].
  destruct (to_size_t n <? size m).
  - destruct (at_index m (to_size_t n)); discriminate.
  - destruct (extend fuel n (to_int (size m)) m) as [d|d|d];
      try discriminate.
    destruct (at_index d (to_size_t n)); discriminate.
Qed.

Lemma fib_nonneg_no_throw fuel n m : 0 <= n -> thrown (fib fuel n m) = None.
Proof.
  intros Hn. unfold fib, return_at.
  destruct (Z.ltb_spec n 0); [lia|].
  destruct (to_size_t n <? size m).
  - destruct (at_index m (to_size_t n)); reflexivity.
  - destruct (extend fuel n (to_int (size m)) m) as [d|d|d];
      try reflexivity.
    destruct (at_index d (to_size_t n)); reflexivity.
Qed.

Lemma main_loop_eq steps fuel index w :
  main_loop steps fuel index w =
  if index <? 100 then
    match steps with
    | O => Stuck w
    | S steps' =>
        match iteration fuel index w with
        | inl r => r
        | inr w' => main_loop steps' fuel (to_int (index + 1)) w'
        end
    end
  else Exit 0 w.
Proof. destruct steps; reflexivity. Qed.

Lemma iteration_ret fuel index w v m' :
  fib fuel index (memo w) = Ret v m' ->
  iteration fuel index w =
    inr (mkWorld m' (cout w ++ line index v) (cerr w)).
Proof.
  intros E. unfold iteration, line. rewrite E.
  now rewrite !append_assoc.
Qed.

Lemma iteration_throw fuel index w what m' :
  fib fuel index (memo w) = Throw (invalid_argument what) m' ->
  iteration fuel index w =
    inr (mkWorld m' (cout w ++ "fib(" ++ show index ++ ") = ")
           (cerr w ++ "Error: " ++ what ++ endl)).
Proof. intros E. unfold iteration. now rewrite E. Qed.

Lemma iteration_fuel_mono fuel fuel' index w w' :
  (fuel <= fuel')%nat ->
  iteration fuel index w = inr w' -> iteration fuel' index w = inr w'.
Proof.
  intros Hle. unfold iteration.
  destruct (fib fuel index (memo w)) as [v d|[what] d|d|d] eqn:E;
    try discriminate.
  - now rewrite (fib_fuel_mono fuel fuel' _ _ _ _ Hle E).
  - now rewrite (fib_throw_any_fuel fuel fuel' _ _ _ _ E).
Qed.

Lemma iteration_never_exits fuel index w r :
  iteration fuel index w = inl r -> exit_code r = None.
Proof.
  unfold iteration.
  destruct (fib fuel index (memo w)) as [v d|[what] d|d|d];
    intros H; try discriminate; injection H as <-; reflexivity.
Qed.

(** More steps and more fuel do not change a run that ended. *)
Lemma main_loop_mono steps : forall steps' fuel fuel' index w code w',
  (steps <= steps')%nat -> (fuel <= fuel')%nat ->
  main_loop steps fuel index w = Exit code w' ->
  main_loop steps' fuel' index w = Exit code w'.
Proof.
  induction steps as [|steps IH];
    intros steps' fuel fuel' index w code w' Hs Hf;
    rewrite !main_loop_eq; destruct (index <? 100); try trivial;
    try discriminate.
  destruct steps' as [|steps']; [lia|].
  destruct (iteration fuel index w) as [r|w1] eqn:E.
  - intros ->. apply iteration_never_exits in E. discriminate.
  - rewrite (iteration_fuel_mono fuel fuel' _ _ _ Hf E).
    apply IH; lia.
Qed.

Lemma main_loop_100 :
  main_loop 100 100 0 (mkWorld init_memo EmptyString EmptyString) =
    Exit 0 (mkWorld (fibs 100) (expected_cout 100) EmptyString).
Proof. vm_compute. reflexivity. Qed.

(** With fuel for the hundred passes [main] ends normally. *)
Lemma main_ends fuel :
  (100 <= fuel)%nat ->
  main fuel = Exit 0 (mkWorld (fibs 100) (expected_cout 100) EmptyString).
Proof.
  intros Hfuel. unfold main.
  exact (main_loop_mono 100 fuel 100 fuel _ _ _ _ Hfuel Hfuel main_loop_100).
Qed.

(** From a non-negative index on, the loop writes nothing to [cerr]. *)
Lemma main_loop_cerr steps : forall fuel index w,
  0 <= index -> cerr (world_of (main_loop steps fuel index w)) = cerr w.
Proof.
  induction steps as [|steps IH]; intros fuel index w Hi;
    rewrite main_loop_eq; destruct (Z.ltb_spec index 100) as [Hlt|];
    try reflexivity.
  pose proof (fib_nonneg_no_throw fuel index (memo w) Hi) as Hno.
  unfold iteration.
  destruct (fib fuel index (memo w)) as [v d|[what] d|d|d];
    try reflexivity; [|discriminate].
  rewrite IH; [reflexivity | zmod].
Qed.

(** C7: [main] calls [fib] for the indices 0 to 99 in ascending order and,
    given fuel, ends with exactly the lines [fib(N) = V] on standard
    output, one per index, where V is the value [fib] returned for N, each
    followed by a newline.  In the loop body a call that returns appends
    that line to standard output, a call that throws appends
    [Error: <message>] and a newline to standard error, and in both cases
    the loop goes on with the next index. *)
Theorem main_prints_fib_0_to_99 :
  (forall fuel, (100 <= fuel)%nat ->
     main fuel =
       Exit 0 (mkWorld (fibs 100) (expected_cout 100) EmptyString)) /\
  (forall fuel k m, reachable m -> (k < 100)%nat -> (k <= fuel)%nat ->
     exists m', fib fuel (Z.of_nat k) m = Ret (F64 k) m') /\
  (forall steps fuel index w v m', index < 100 ->
     fib fuel index (memo w) = Ret v m' ->
     main_loop (S steps) fuel index w =
       main_loop steps fuel (to_int (index + 1))
         (mkWorld m' (cout w ++ line index v) (cerr w))) /\
  (forall steps fuel index w what m', index < 100 ->
     fib fuel index (memo w) = Throw (invalid_argument what) m' ->
     main_loop (S steps) fuel index w =
       main_loop steps fuel (to_int (index + 1))
         (mkWorld m' (cout w ++ "fib(" ++ show index ++ ") = ")
            (cerr w ++ "Error: " ++ what ++ endl))).
Proof.
  split; [|split; [|split]].
  - exact main_ends.
  - intros fuel k m Hreach Hk Hfuel.
    pose proof (reachable_invariant m Hreach) as Hinv.
    pose proof (invariant_size _ _ Hinv) as Hsz.
    destruct (fib_returns_F64 fuel (Z.of_nat k) m Hinv) as [m' E];
      [unfold INT_MAX; lia | lia |].
    exists m'. now rewrite Nat2Z.id in E.
  - intros steps fuel index w v m' Hlt E. rewrite main_loop_eq.
    destruct (Z.ltb_spec index 100); [|lia].
    now rewrite (iteration_ret _ _ _ _ _ E).
  - intros steps fuel index w what m' Hlt E. rewrite main_loop_eq.
    destruct (Z.ltb_spec index 100); [|lia].
    now rewrite (iteration_throw _ _ _ _ _ E).
Qed.

Lemma main_prints_fib_0_to_99_witness :
  (100 <= 100)%nat /\
  main 100 = Exit 0 (mkWorld (fibs 100) (expected_cout 100) EmptyString) /\
  reachable init_memo /\ (10 < 100)%nat /\ (10 <= 10)%nat /\
  (exists m', fib 10 10 init_memo = Ret 55 m') /\
  7 < 100 /\ fib 9 7 [0; 1] = Ret 13 [0; 1; 1; 2; 3; 5; 8; 13] /\
  main_loop 1 9 7 (mkWorld [0; 1] "out" "err") =
    main_loop 0 9 8
      (mkWorld [0; 1; 1; 2; 3; 5; 8; 13]
         ("out" ++ "fib(7) = 13" ++ endl) "err") /\
  -1 < 100 /\
  fib 9 (-1) [0; 1] =
    Throw (invalid_argument "Negative arguments are not allowed.") [0; 1] /\
  main_loop 1 9 (-1) (mkWorld [0; 1] "out" "err") =
    main_loop 0 9 0
      (mkWorld [0; 1] ("out" ++ "fib(-1) = ")
         ("err" ++ "Error: Negative arguments are not allowed." ++ endl)).
Proof.
  pose proof main_prints_fib_0_to_99 as (Hmain & Hval & Hret & Hthrow).
  assert (H100 : (100 <= 100)%nat) by lia.
  assert (Hk : (10 < 100)%nat) by lia.
  assert (Hf : (10 <= 10)%nat) by lia.
  assert (H7 : 7 < 100) by lia.
  assert (E7 : fib 9 7 (memo (mkWorld [0; 1] "out" "err")) =
               Ret 13 [0; 1; 1; 2; 3; 5; 8; 13]) by reflexivity.
  assert (H1 : -1 < 100) by lia.
  assert (E1 : fib 9 (-1) (memo (mkWorld [0; 1] "out" "err")) =
               Throw (invalid_argument "Negative arguments are not allowed.")
                 [0; 1]) by reflexivity.
  split; [exact H100|]. split; [exact (Hmain 100%nat H100)|].
  split; [exact reach_init|]. split; [exact Hk|]. split; [exact Hf|].
  split; [exact (Hval 10%nat 10%nat init_memo reach_init Hk Hf)|].
  split; [exact H7|]. split; [exact E7|].
  split; [exact (Hret 0%nat 9%nat 7 _ _ _ H7 E7)|].
  split; [exact H1|]. split; [exact E1|].
  exact (Hthrow 0%nat 9%nat (-1) _ _ _ H1 E1).
Defined.

(** C8: for the indices 0 to 99 of the driver loop [fib] never throws, so
    [main] never writes to standard error, and, given fuel, the process
    ends with exit code 0. *)
Theorem main_never_fails :
  (forall fuel index m, 0 <= index < 100 ->
     thrown (fib fuel index m) = None) /\
  (forall fuel, cerr (world_of (main fuel)) = EmptyString) /\
  (forall fuel, (100 <= fuel)%nat -> exit_code (main fuel) = Some 0).
Proof.
  split; [|split].
  - intros fuel index m Hi. apply fib_nonneg_no_throw. lia.
  - intros fuel. unfold main. rewrite main_loop_cerr; [reflexivity | lia].
  - intros fuel Hfuel. rewrite (main_ends fuel Hfuel). reflexivity.
Qed.

Lemma main_never_fails_witness :
  0 <= 99 < 100 /\ thrown (fib 100 99 init_memo) = None /\
  (100 <= 100)%nat /\ exit_code (main 100) = Some 0 /\
  cerr (world_of (main 100)) = EmptyString.
Proof.
  pose proof main_never_fails as (Hthrow & Hcerr & Hexit).
  assert (H99 : 0 <= 99 < 100) by lia.
  assert (H100 : (100 <= 100)%nat) by lia.
  split; [exact H99|]. split; [exact (Hthrow 100%nat 99 init_memo H99)|].
  split; [exact H100|]. split; [exact (Hexit 100%nat H100)|].
  exact (Hcerr 100%nat).
Defined.

(** ** The largest index *)

(** C9 at n = INT_MAX: whatever the fuel, the call [fib(2147483647)] on the
    initial cache returns no value; the loop condition [i <= n] cannot
    become false. *)
Theorem fib_INT_MAX_returns_nothing fuel :
  returned_value (fib fuel 2147483647 init_memo) = None.
Proof.
  destruct (fib_INT_MAX fuel) as [m E]. unfold INT_MAX in E. rewrite E.
  destruct (2147483648 <=? Z.of_nat fuel); reflexivity.
Qed.

(** C10 at n = INT_MAX: the call [fib(2147483647)] on the initial cache
    applies [memo[i - 1]] to an index that is out of range, after 2^31
    passes through the loop; with less fuel the model is still in the
    loop. *)
Theorem fib_INT_MAX_reads_out_of_range fuel :
  exists m,
    fib fuel 2147483647 init_memo =
    if 2147483648 <=? Z.of_nat fuel then Undefined m else OutOfFuel m.
Proof. exact (fib_INT_MAX fuel). Qed.

(** ** The cache as a table of 64-bit Fibonacci numbers *)

Lemma length_fibs len : List.length (fibs len) = len.
Proof. unfold fibs. now rewrite length_map, length_seq. Qed.

Lemma nth_error_fibs len k :
  (k < len)%nat -> nth_error (fibs len) k = Some (F64 k).
Proof.
  intros H. unfold fibs. rewrite nth_error_map, nth_error_seq.
  destruct (Nat.ltb_spec k len); [reflexivity | lia].
Qed.

Lemma invariant_is_fibs m :
  cache_invariant add_ll m -> m = fibs (List.length m).
Proof.
  intros Hinv. apply nth_error_ext. intros k.
  destruct (Nat.lt_ge_cases k (List.length m)) as [Hlt|Hge].
  - rewrite nth_error_fibs by exact Hlt.
    destruct (nth_error m k) as [v|] eqn:E;
      [|apply nth_error_None in E; lia].
    now rewrite (invariant_entries m Hinv k v E).
  - transitivity (@None Z); [|symmetry]; apply nth_error_None;
      rewrite ?length_fibs; lia.
Qed.

Lemma fibs_invariant len : (2 <= len)%nat -> cache_invariant add_ll (fibs len).
Proof.
  intros Hlen. repeat split.
  - now rewrite nth_error_fibs by lia.
  - now rewrite nth_error_fibs by lia.
  - intros j a b c _ Hj Hc Ha Hb.
    assert (Hlt : (j < len)%nat).
    { rewrite <- (length_fibs len). apply nth_error_Some. congruence. }
    rewrite nth_error_fibs in Hc, Ha, Hb by lia.
    injection Hc as <-. injection Ha as <-. injection Hb as <-.
    destruct j as [|[|k]]; try lia.
    replace (S (S k) - 1)%nat with (S k) by lia.
    replace (S (S k) - 2)%nat with k by lia.
    apply F64_rec.
Qed.

(** What a call below [INT_MAX] does to a cache that satisfies the
    invariant: the value and the cache it leaves. *)
Lemma fib_result fuel n m :
  cache_invariant add_ll m -> 0 <= n < INT_MAX ->
  (Z.to_nat (n + 1 - size m) <= fuel)%nat ->
  fib fuel n m =
    Ret (F64 (Z.to_nat n))
        (fibs (Nat.max (List.length m) (Z.to_nat (n + 1)))).
Proof.
  intros Hinv Hn Hfuel. pose proof (invariant_size _ _ Hinv) as Hsz.
  destruct (fib_returns_F64 fuel n m Hinv Hn Hfuel) as [m' E].
  rewrite E. f_equal.
  assert (Hinv' : cache_invariant add_ll m').
  { pose proof (fib_invariant fuel n m) as H. rewrite E in H.
    apply H; [zmod | exact Hinv]. }
  rewrite (invariant_is_fibs m' Hinv'). f_equal.
  destruct (Z.lt_ge_cases n (size m)) as [Hlt|Hge].
  - destruct (fib_hit fuel n m) as [v [_ E']]; [lia | lia |].
    rewrite E in E'. injection E' as _ ->. unfold size in Hlt. lia.
  - destruct (fib_miss fuel n m) as (ext & v & E' & Hs & _); try lia.
    rewrite E in E'. injection E' as _ ->. unfold size in *. lia.
Qed.

Lemma fib_throw_inv fuel n m e m' :
  fib fuel n m = Throw e m' ->
  n < 0 /\ e = invalid_argument negative_msg /\ m' = m.
Proof.
  unfold fib, return_at. destruct (Z.ltb_spec n 0) as [Hn|].
  - intros H. injection H as <- <-. repeat split. exact Hn.
  - destruct (to_size_t n <? size m).
    + destruct (at_index m (to_size_t n)); discriminate.
    + destruct (extend fuel n (to_int (size m)) m) as [d|d|d];
        try discriminate.
      destruct (at_index d (to_size_t n)); discriminate.
Qed.

(** A call that returned from a cache of at most [INT_MAX] entries was a
    call below [INT_MAX], and left [max(old length, n + 1)] entries. *)
Lemma fib_ret_size fuel n m v m' :
  2 <= size m <= INT_MAX -> in_int n ->
  fib fuel n m = Ret v m' ->
  0 <= n < INT_MAX /\ size m' = Z.max (size m) (n + 1).
Proof.
  intros Hsz Hint E. destruct (fib_ret_at _ _ _ _ _ E) as [Hn _].
  destruct (Z.lt_ge_cases n (size m)) as [Hlt|Hge].
  - destruct (fib_hit fuel n m) as [u [_ E']]; [unwrap; lia | lia |].
    rewrite E in E'. injection E' as _ ->. lia.
  - destruct (Z.eq_dec n INT_MAX) as [->|Hne].
    + exfalso. revert E. unfold fib, return_at.
      change (INT_MAX <? 0) with false. cbv iota.
      rewrite to_size_t_id by (unfold INT_MAX; lia).
      destruct (Z.ltb_spec INT_MAX (size m)); [lia|].
      destruct (extend_INT_MAX fuel (to_int (size m)) m) as [d Ed];
        [left; split; zmod | lia |].
      rewrite Ed. destruct (2147483650 - size m <=? Z.of_nat fuel);
        discriminate.
    + assert (Hlt : n < INT_MAX) by (unwrap; lia).
      split; [lia|]. revert E. unfold fib, return_at.
      destruct (Z.ltb_spec n 0); [lia|].
      rewrite to_size_t_id by (unfold INT_MAX in Hlt; lia).
      destruct (Z.ltb_spec n (size m)); [lia|].
      replace (to_int (size m)) with (size m) by zmod.
      destruct (extend_no_fault fuel n m) as [d [[Ed Hd] | Ed]]; try lia;
        rewrite Ed; [|discriminate].
      destruct (at_index d n); [|discriminate].
      intros Hr. injection Hr as _ <-. lia.
Qed.

Lemma fib_ret_value fuel n m v m' :
  cache_invariant add_ll m -> in_int n ->
  fib fuel n m = Ret v m' -> v = F64 (Z.to_nat n).
Proof.
  intros Hinv Hint E. destruct (fib_ret_at _ _ _ _ _ E) as [Hn Hat].
  rewrite to_size_t_id in Hat by zmod.
  pose proof (fib_invariant fuel n m Hint Hinv) as Hinv'.
  rewrite E in Hinv'. simpl in Hinv'.
  apply (invariant_entries m' Hinv'). now apply at_index_nth.
Qed.

Lemma reachable_bounded m : reachable m -> size m <= INT_MAX.
Proof.
  induction 1 as [|fuel n m v m' Hr IH Hn E|fuel n m e m' Hr IH Hn E].
  - unfold size, INT_MAX. simpl. lia.
  - pose proof (reachable_size m Hr) as Hsz.
    destruct (fib_ret_size fuel n m v m' (conj Hsz IH) Hn E) as [Hlt Hs].
    lia.
  - destruct (fib_throw_inv _ _ _ _ _ E) as (_ & _ & ->). exact IH.
Qed.

Lemma F64_wrong_from_93 k : (93 <= k)%nat -> F64 k <> F k.
Proof.
  intros Hk E. pose proof (F_mono 93 k Hk) as Hm. rewrite F_93 in Hm.
  pose proof (to_ll_range (F k)) as Hr. unfold F64 in E. lia.
Qed.

(** X1: below [INT_MAX], in every reachable cache and with fuel for the
    missing entries, [fib n] returns F(n) reduced modulo 2^64 into the
    signed 64-bit range, and leaves the cache holding exactly the reduced
    Fibonacci numbers of the indices 0 .. max(old length, n + 1) - 1. *)
Theorem fib_returns_wrapped_Fibonacci fuel n m :
  reachable m -> 0 <= n < INT_MAX ->
  (Z.to_nat (n + 1 - size m) <= fuel)%nat ->
  fib fuel n m =
    Ret (to_ll (F (Z.to_nat n)))
        (map (fun k => to_ll (F k))
             (seq 0 (Nat.max (List.length m) (Z.to_nat (n + 1))))).
Proof.
  intros Hreach Hn Hfuel.
  exact (fib_result fuel n m (reachable_invariant m Hreach) Hn Hfuel).
Qed.

Lemma fib_returns_wrapped_Fibonacci_witness :
  reachable init_memo /\ 0 <= 95 < INT_MAX /\
  (Z.to_nat (95 + 1 - size init_memo) <= 94)%nat /\
  fib 94 95 init_memo =
    Ret (to_ll (F (Z.to_nat 95)))
        (map (fun k => to_ll (F k))
             (seq 0 (Nat.max (List.length init_memo) (Z.to_nat (95 + 1))))).
Proof.
  assert (H1 : 0 <= 95 < INT_MAX) by (unfold INT_MAX; lia).
  assert (H2 : (Z.to_nat (95 + 1 - size init_memo) <= 94)%nat)
    by (unfold size; simpl; lia).
  split; [exact reach_init|]. split; [exact H1|]. split; [exact H2|].
  exact (fib_returns_wrapped_Fibonacci 94 95 init_memo reach_init H1 H2).
Defined.

(** X2: the values [fib] returns obey the recurrence in 64-bit arithmetic:
    whatever reachable caches the three calls start from, the value returned
    for n >= 2 is the wrapped [long long] sum of the values returned for
    n - 1 and n - 2. *)
Theorem returned_values_recurrence
  fuel0 fuel1 fuel2 n m0 m1 m2 v0 v1 v2 m0' m1' m2' :
  reachable m0 -> reachable m1 -> reachable m2 -> in_int n -> 2 <= n ->
  fib fuel0 n m0 = Ret v0 m0' ->
  fib fuel1 (n - 1) m1 = Ret v1 m1' ->
  fib fuel2 (n - 2) m2 = Ret v2 m2' ->
  v0 = add_ll v1 v2.
Proof.
  intros R0 R1 R2 Hint Hn E0 E1 E2.
  apply fib_ret_value in E0; [|now apply reachable_invariant | exact Hint].
  apply fib_ret_value in E1; [|now apply reachable_invariant | zmod].
  apply fib_ret_value in E2; [|now apply reachable_invariant | zmod].
  subst v0 v1 v2.
  replace (Z.to_nat n) with (S (S (Z.to_nat (n - 2)))) by lia.
  replace (Z.to_nat (n - 1)) with (S (Z.to_nat (n - 2))) by lia.
  apply F64_rec.
Qed.

Lemma returned_values_recurrence_witness :
  reachable init_memo /\ in_int 93 /\ 2 <= 93 /\
  fib 100 93 init_memo = Ret (-6246583658587674878) (fibs 94) /\
  fib 0 (93 - 1) (fibs 94) = Ret 7540113804746346429 (fibs 94) /\
  fib 100 (93 - 2) init_memo = Ret 4660046610375530309 (fibs 92) /\
  -6246583658587674878 = add_ll 7540113804746346429 4660046610375530309.
Proof.
  assert (Hint : in_int 93) by (unfold in_int, INT_MIN, INT_MAX; lia).
  assert (H2 : 2 <= 93) by lia.
  pose proof fib_93_from_init as E0.
  assert (E1 : fib 0 (93 - 1) (fibs 94) = Ret 7540113804746346429 (fibs 94))
    by (vm_compute; reflexivity).
  assert (E2 : fib 100 (93 - 2) init_memo =
               Ret 4660046610375530309 (fibs 92))
    by (vm_compute; reflexivity).
  assert (R1 : reachable (fibs 94))
    by exact (reach_ret 100 93 init_memo _ _ reach_init Hint E0).
  split; [exact reach_init|]. split; [exact Hint|]. split; [exact H2|].
  split; [exact E0|]. split; [exact E1|]. split; [exact E2|].
  exact (returned_values_recurrence 100 0 100 93 init_memo (fibs 94)
           init_memo _ _ _ _ _ _ reach_init R1 reach_init Hint H2 E0 E1 E2).
Defined.

(** X3: a value [fib] returns from a reachable cache is the true Fibonacci
    number exactly when the index is at most 92; from 93 on the returned
    value differs from F(n). *)
Theorem fib_exact_iff_at_most_92 fuel n m v m' :
  reachable m -> in_int n -> fib fuel n m = Ret v m' ->
  (v = F (Z.to_nat n) <-> n <= 92).
Proof.
  intros Hreach Hint E.
  destruct (fib_ret_at _ _ _ _ _ E) as [Hn _].
  apply fib_ret_value in E; [|now apply reachable_invariant | exact Hint].
  subst v. split.
  - intros Heq. destruct (Z.le_gt_cases n 92) as [|Hgt]; [assumption|].
    exfalso. apply (F64_wrong_from_93 (Z.to_nat n)); [lia | exact Heq].
  - intros Hle. apply F64_exact. lia.
Qed.

Lemma fib_exact_iff_at_most_92_witness :
  reachable init_memo /\ in_int 93 /\
  fib 100 93 init_memo = Ret (-6246583658587674878) (fibs 94) /\
  (-6246583658587674878 = F (Z.to_nat 93) <-> 93 <= 92).
Proof.
  assert (Hint : in_int 93) by (unfold in_int, INT_MIN, INT_MAX; lia).
  split; [exact reach_init|]. split; [exact Hint|].
  split; [exact fib_93_from_init|].
  exact (fib_exact_iff_at_most_92 100 93 init_memo _ _ reach_init Hint
           fib_93_from_init).
Defined.

(** X4: the reachable caches are exactly the tables of the first [len]
    reduced Fibonacci numbers with 2 <= len <= INT_MAX: every cache the
    program can be in is such a table, and every such table is left by some
    call of [fib] on the initial cache. *)
Theorem reachable_iff_fibs m :
  reachable m <->
  exists len, (2 <= len)%nat /\ Z.of_nat len <= INT_MAX /\ m = fibs len.
Proof.
  split.
  - intros Hreach. exists (List.length m).
    pose proof (reachable_size m Hreach) as Hsz.
    pose proof (reachable_bounded m Hreach) as Hmax.
    unfold size in *. repeat split; try lia.
    apply invariant_is_fibs. now apply reachable_invariant.
  - intros (len & Hlen & Hmax & ->).
    assert (Hn : 0 <= Z.of_nat len - 1 < INT_MAX) by lia.
    assert (Hint : in_int (Z.of_nat len - 1)) by zmod.
    pose proof (fib_result len (Z.of_nat len - 1) init_memo
                  (init_invariant add_ll) Hn) as E.
    replace (Nat.max (List.length init_memo) (Z.to_nat (Z.of_nat len - 1 + 1)))
      with len in E by (change (List.length init_memo) with 2%nat; lia).
    refine (reach_ret len _ init_memo _ _ reach_init Hint (E _)).
    unfold size. change (List.length init_memo) with 2%nat. lia.
Qed.

Lemma reachable_iff_fibs_witness :
  (2 <= 5)%nat /\ Z.of_nat 5 <= INT_MAX /\ reachable (fibs 5) /\
  exists len, (2 <= len)%nat /\ Z.of_nat len <= INT_MAX /\
              init_memo = fibs len.
Proof.
  assert (H5 : (2 <= 5)%nat) by lia.
  assert (Hmax : Z.of_nat 5 <= INT_MAX) by (unfold INT_MAX; lia).
  split; [exact H5|]. split; [exact Hmax|]. split.
  - exact (proj2 (reachable_iff_fibs (fibs 5))
             (ex_intro _ 5%nat (conj H5 (conj Hmax eq_refl)))).
  - exact (proj1 (reachable_iff_fibs init_memo) reach_init).
Defined.







(** X8: two calls commute: from a reachable cache, [fib a] followed by
    [fib b] and [fib b] followed by [fib a] return the same two values and
    leave the same cache. *)
Theorem fib_calls_commute fuel a b m :
  reachable m -> 0 <= a < INT_MAX -> 0 <= b < INT_MAX ->
  (Z.to_nat a <= fuel)%nat -> (Z.to_nat b <= fuel)%nat ->
  exists va vb m1 m2 mf,
    fib fuel a m = Ret va m1 /\ fib fuel b m1 = Ret vb mf /\
    fib fuel b m = Ret vb m2 /\ fib fuel a m2 = Ret va mf.
Proof.
  intros Hreach Ha Hb Hfa Hfb.
  pose proof (reachable_invariant m Hreach) as Hinv.
  pose proof (invariant_size _ _ Hinv) as Hsz.
  set (la := Nat.max (List.length m) (Z.to_nat (a + 1))).
  set (lb := Nat.max (List.length m) (Z.to_nat (b + 1))).
  assert (Hla : (2 <= la)%nat) by (unfold size in Hsz; subst la; lia).
  assert (Hlb : (2 <= lb)%nat) by (unfold size in Hsz; subst lb; lia).
  assert (Sa : size (fibs la) = Z.of_nat la)
    by (unfold size; now rewrite length_fibs).
  assert (Sb : size (fibs lb) = Z.of_nat lb)
    by (unfold size; now rewrite length_fibs).
  exists (F64 (Z.to_nat a)), (F64 (Z.to_nat b)), (fibs la), (fibs lb),
    (fibs (Nat.max la (Z.to_nat (b + 1)))).
  split; [apply fib_result; [assumption | assumption | lia]|].
  split.
  - rewrite (fib_result fuel b (fibs la) (fibs_invariant la Hla) Hb)
      by (rewrite Sa; lia).
    now rewrite length_fibs.
  - split; [apply fib_result; [assumption | assumption | lia]|].
    rewrite (fib_result fuel a (fibs lb) (fibs_invariant lb Hlb) Ha)
      by (rewrite Sb; lia).
    rewrite length_fibs. do 2 f_equal. subst la lb. lia.
Qed.

Lemma fib_calls_commute_witness :
  reachable init_memo /\ 0 <= 3 < INT_MAX /\ 0 <= 6 < INT_MAX /\
  (Z.to_nat 3 <= 6)%nat /\ (Z.to_nat 6 <= 6)%nat /\
  exists va vb m1 m2 mf,
    fib 6 3 init_memo = Ret va m1 /\ fib 6 6 m1 = Ret vb mf /\
    fib 6 6 init_memo = Ret vb m2 /\ fib 6 3 m2 = Ret va mf.
Proof.
  assert (H3 : 0 <= 3 < INT_MAX) by (unfold INT_MAX; lia).
  assert (H6 : 0 <= 6 < INT_MAX) by (unfold INT_MAX; lia).
  assert (F3 : (Z.to_nat 3 <= 6)%nat) by lia.
  assert (F6 : (Z.to_nat 6 <= 6)%nat) by lia.
  split; [exact reach_init|]. split; [exact H3|]. split; [exact H6|].
  split; [exact F3|]. split; [exact F6|].
  exact (fib_calls_commute 6 3 6 init_memo reach_init H3 H6 F3 F6).
Defined.

(** ** The driver loop from any index *)

Lemma append_nil_r (s : string) : (s ++ "")%string = s.
Proof. induction s as [|c s IH]; simpl; [reflexivity | now rewrite IH]. Qed.

Lemma concat_cons (x : string) (xs : list string) :
  String.concat EmptyString (x :: xs) =
  (x ++ String.concat EmptyString xs)%string.
Proof.
  destruct xs as [|y ys]; simpl; [now rewrite append_nil_r | reflexivity].
Qed.

Lemma lines_from_S start count :
  lines_from start (S count) =
  (line (Z.of_nat start) (F64 start) ++ lines_from (S start) count)%string.
Proof. unfold lines_from. simpl seq. simpl map. apply concat_cons. Qed.

Lemma main_loop_run count : forall steps fuel start w,
  (start + count = 100)%nat -> cache_invariant add_ll (memo w) ->
  (count <= steps)%nat -> (100 <= fuel)%nat ->
  main_loop steps fuel (Z.of_nat start) w =
    Exit 0
      (mkWorld
         match count with
         | O => memo w
         | S _ => fibs (Nat.max (List.length (memo w)) 100)
         end
         (cout w ++ lines_from start count) (cerr w)).
Proof.
  induction count as [|count IH]; intros steps fuel start w Hsum Hinv Hs Hf;
    rewrite main_loop_eq; destruct (Z.ltb_spec (Z.of_nat start) 100);
    try lia.
  - unfold lines_from. simpl. rewrite append_nil_r. now destruct w.
  - destruct steps as [|steps]; [lia|].
    pose proof (invariant_size _ _ Hinv) as Hsz.
    assert (E : fib fuel (Z.of_nat start) (memo w) =
                Ret (F64 start)
                  (fibs (Nat.max (List.length (memo w)) (S start)))).
    { rewrite (fib_result fuel (Z.of_nat start) (memo w) Hinv)
        by (unfold INT_MAX; lia).
      rewrite Nat2Z.id. do 3 f_equal. lia. }
    rewrite (iteration_ret _ _ _ _ _ E).
    replace (to_int (Z.of_nat start + 1)) with (Z.of_nat (S start)) by zmod.
    rewrite IH; try lia.
    + cbn [memo cout cerr]. rewrite length_fibs, lines_from_S, append_assoc.
      do 2 f_equal.
      destruct count as [|count]; f_equal; unfold size in Hsz; lia.
    + cbn [memo]. apply fibs_invariant. unfold size in Hsz. lia.
Qed.

(** X9: started at any index below 100, with any reachable cache and
    whatever was written before, the driver loop ends with exit code 0,
    appends to standard output exactly the lines [fib(N) = V] for
    N = start .. 99 in ascending order, V being F(N) reduced to 64 bits,
    writes nothing to standard error, and leaves the cache with
    max(old length, 100) entries. *)
Theorem main_loop_from_any_index steps fuel start w :
  (start < 100)%nat -> reachable (memo w) ->
  (100 - start <= steps)%nat -> (100 <= fuel)%nat ->
  main_loop steps fuel (Z.of_nat start) w =
    Exit 0
      (mkWorld (fibs (Nat.max (List.length (memo w)) 100))
         (cout w ++ lines_from start (100 - start)) (cerr w)).
Proof.
  intros Hstart Hreach Hsteps Hfuel.
  rewrite (main_loop_run (100 - start) steps fuel start w); try lia.
  - destruct (100 - start)%nat eqn:E; [lia | reflexivity].
  - now apply reachable_invariant.
Qed.

Lemma main_loop_from_any_index_witness :
  (97 < 100)%nat /\ reachable (memo (mkWorld init_memo "out" "err")) /\
  (100 - 97 <= 3)%nat /\ (100 <= 100)%nat /\
  main_loop 3 100 (Z.of_nat 97) (mkWorld init_memo "out" "err") =
    Exit 0
      (mkWorld
         (fibs (Nat.max (List.length (memo (mkWorld init_memo "out" "err")))
                  100))
         (cout (mkWorld init_memo "out" "err") ++ lines_from 97 (100 - 97))
         (cerr (mkWorld init_memo "out" "err"))).
Proof.
  assert (H1 : (97 < 100)%nat) by lia.
  assert (H2 : reachable (memo (mkWorld init_memo "out" "err")))
    by exact reach_init.
  assert (H3 : (100 - 97 <= 3)%nat) by lia.
  assert (H4 : (100 <= 100)%nat) by lia.
  split; [exact H1|]. split; [exact H2|]. split; [exact H3|].
  split; [exact H4|].
  exact (main_loop_from_any_index 3 100 97 _ H1 H2 H3 H4).
Defined.

(** X10: a pass of the driver loop at a negative index does not end the
    loop: [fib] throws, the cache is untouched, standard error receives
    the line [Error: Negative arguments are not allowed.], standard output
    keeps the fragment [fib(N) = ] written before the call (the operands
    of [<<] being evaluated from left to right) without a newline, and the
    loop goes on with the next index. *)
Theorem main_loop_negative_index steps fuel index w :
  in_int index -> index < 0 ->
  main_loop (S steps) fuel index w =
    main_loop steps fuel (index + 1)
      (mkWorld (memo w)
         (cout w ++ "fib(" ++ show index ++ ") = ")
         (cerr w ++ "Error: Negative arguments are not allowed." ++ endl)).
Proof.
  intros Hint Hneg. rewrite main_loop_eq.
  destruct (Z.ltb_spec index 100); [|lia].
  rewrite (iteration_throw fuel index w negative_msg (memo w))
    by (now apply fib_negative).
  replace (to_int (index + 1)) with (index + 1) by zmod.
  reflexivity.
Qed.

Lemma main_loop_negative_index_witness :
  in_int (-2) /\ -2 < 0 /\
  main_loop 3 5 (-2) (mkWorld init_memo "" "") =
    main_loop 2 5 (-2 + 1)
      (mkWorld (memo (mkWorld init_memo "" ""))
         (cout (mkWorld init_memo "" "") ++ "fib(" ++ show (-2) ++ ") = ")
         (cerr (mkWorld init_memo "" "") ++
          "Error: Negative arguments are not allowed." ++ endl)).
Proof.
  assert (H1 : in_int (-2)) by (unfold in_int, INT_MIN, INT_MAX; lia).
  assert (H2 : -2 < 0) by lia.
  split; [exact H1|]. split; [exact H2|].
  exact (main_loop_negative_index 2 5 (-2) (mkWorld init_memo "" "") H1 H2).
Defined.
